(** * CForm: validator registry and error state of the form component

    Shallow embedding of the validation logic of
    [src/packages/ui/src/components/form/CForm.tsx]:
    [addValidator], [clearAll], [clearField], [validateField] and
    [validateAll].

    - A validator result has TypeScript type [string | false]; it is
      [sf] below.  The source tests it with [if (error)], so the empty
      string counts as "no error" (JavaScript truthiness, [truthy]).
    - A validator may be asynchronous and may throw or reject.  Every call
      is awaited before the next one starts, so the sequential model keeps
      only the outcome of each call: it returns a value or it throws
      ([call_result]).
    - Effects are a small trace-and-exception monad [M]: the trace records
      which rule of which field was invoked, and [None] is an exception
      that propagates out of the handler (nothing catches it).
    - The React error state ([useState<Errors>()]) is an [option Errors]:
      [None] is the initial [undefined].  A handler changes it only through
      [setErrors]; [commit] applies the value a handler passes to
      [setErrors], or leaves the state as it was when the handler threw
      before reaching [setErrors].
    - [clearField] and [validateField] spread the [errors] value of the
      render that created them; that snapshot is an explicit argument.
    - The registry [validators] is the JavaScript object created by
      [const validators: Validators = {}]: its own properties in creation
      order, and its prototype, [Object.prototype] unless an assignment
      [validators['__proto__'] = rules] replaced it by the array [rules].
      [validators[field]] is a JavaScript value ([jsval]): an own rule
      list, or what the prototype chain gives (inherited methods such as
      [constructor], an element or the [length] of the array prototype,
      or [undefined]).  [for ... in] visits the own keys in property order
      (array-index keys ascending, then the others in creation order) and
      then the enumerable index keys of an array prototype that no own key
      shadows.  The names of the built-in prototype members are those of
      ECMAScript 2023.
    - [addValidator] never creates an own property named [__proto__] (the
      assignment runs the setter instead), so [validateAll] never visits
      that key, and its write [errors[field] = error] is an ordinary
      property write.  The object literal [{...errors, [field]: hasError}]
      of [validateField] defines an own property under any name. *)

From Stdlib Require Import Ascii.
From stdpp Require Import base gmap strings list pretty.

(** ** Values *)

(** TypeScript [string | false]. *)
Inductive sf : Type :=
| SFalse
| SStr (s : string).

(** JavaScript truthiness of a [string | false] value. *)
Definition truthy (e : sf) : bool :=
  match e with
  | SFalse => false
  | SStr EmptyString => false
  | SStr _ => true
  end.

(** [Errors]: field name to [false | string]. *)
Abbreviation Errors := (gmap string sf).

(** Outcome of awaiting one validator call. *)
Inductive call_result : Type :=
| Returns (e : sf)
| Throws.

(** One invocation of a rule: the field and the rule's position in the
    field's rule list. *)
Record call : Type := Call { call_field : string; call_index : nat }.

(** ** Trace-and-exception monad *)

Definition M (A : Type) : Type := (list call * option A)%type.

Definition ret {A} (a : A) : M A := ([], Some a).

Definition bind {A B} (m : M A) (k : A -> M B) : M B :=
  match m with
  | (t, Some a) => let '(t', r) := k a in (t ++ t', r)
  | (t, None) => (t, None)
  end.

Notation "x <- m ;; k" := (bind m (fun x => k))
  (at level 65, m at next level, right associativity).


(** ** Property keys

    A property key is an array index when it is the canonical decimal
    numeral of an integer below [2^32 - 1]. *)

Definition digit_value (c : ascii) : option N :=
  let n := Ascii.N_of_ascii c in
  if (48 <=? n)%N && (n <=? 57)%N then Some (n - 48)%N else None.

Fixpoint digits_value (acc : N) (s : string) : option N :=
  match s with
  | EmptyString => Some acc
  | String c rest =>
      match digit_value c with
      | Some d => digits_value (acc * 10 + d)%N rest
      | None => None
      end
  end.

Definition array_index (key : string) : option N :=
  if String.eqb key "0" then Some 0%N else
  match key with
  | EmptyString => None
  | String c _ =>
      if Ascii.eqb c "0" then None else
      match digits_value 0 key with
      | Some n => if (n <? 4294967295)%N then Some n else None
      | None => None
      end
  end.

(** [OrdinaryOwnPropertyKeys] for string keys: the array indices in
    ascending order, then the other keys in creation order. *)
Fixpoint insert_index (k : string) (n : N) (ks : list (string * N)) : list (string * N) :=
  match ks with
  | [] => [(k, n)]
  | (k', n') :: rest =>
      if (n <? n')%N then (k, n) :: ks else (k', n') :: insert_index k n rest
  end.

Fixpoint index_keys (ks : list string) : list (string * N) :=
  match ks with
  | [] => []
  | k :: rest =>
      match array_index k with
      | Some n => insert_index k n (index_keys rest)
      | None => index_keys rest
      end
  end.

Definition own_keys (ks : list string) : list string :=
  map fst (index_keys ks) ++ filter (fun k => array_index k = None) ks.

(** The methods of [Object.prototype] (besides the [__proto__] accessor). *)
Definition object_proto_methods : list string :=
  ["constructor"; "__defineGetter__"; "__defineSetter__"; "hasOwnProperty";
   "__lookupGetter__"; "__lookupSetter__"; "isPrototypeOf";
   "propertyIsEnumerable"; "toString"; "valueOf"; "toLocaleString"].

(** The methods of [Array.prototype]. *)
Definition array_proto_methods : list string :=
  ["at"; "concat"; "constructor"; "copyWithin"; "entries"; "every"; "fill";
   "filter"; "find"; "findIndex"; "findLast"; "findLastIndex"; "flat";
   "flatMap"; "forEach"; "includes"; "indexOf"; "join"; "keys";
   "lastIndexOf"; "map"; "pop"; "push"; "reduce"; "reduceRight"; "reverse";
   "shift"; "slice"; "some"; "sort"; "splice"; "toLocaleString";
   "toReversed"; "toSorted"; "toSpliced"; "toString"; "unshift"; "values";
   "with"].

Section CForm.

(** The type of the form's field values ([value: any]). *)
Variable V : Type.

(** [Validator]: a (possibly asynchronous) function of a field value. *)
Definition validator : Type := V -> call_result.

(** [Validators]: the object [validators].  [own] are its own properties
    in creation order; [proto] is its prototype: [None] for
    [Object.prototype], [Some a] after [validators['__proto__'] = a]. *)
Record registry : Type := Registry {
  own :> list (string * list validator);
  proto : option (list validator)
}.

(** A registry whose prototype is [Object.prototype]. *)
Definition of_own (l : list (string * list validator)) : registry := Registry l None.

(** The JavaScript values [validators[field]] can have. *)
Inductive jsval : Type :=
| JUndefined
| JArray (rules : list validator)
| JFunction
| JObject
| JNumber (n : nat).

Definition js_truthy (v : jsval) : bool :=
  match v with
  | JUndefined => false
  | JNumber 0 => false
  | _ => true
  end.

(** Own property lookup. *)
Fixpoint own_lookup (props : list (string * list validator)) (field : string)
  : option (list validator) :=
  match props with
  | [] => None
  | (k, rules) :: rest => if String.eqb k field then Some rules else own_lookup rest field
  end.

(** Own property assignment: overwrite in place, or append a new
    property. *)
Fixpoint own_set (props : list (string * list validator)) (field : string)
    (rules : list validator) : list (string * list validator) :=
  match props with
  | [] => [(field, rules)]
  | (k, rs) :: rest =>
      if String.eqb k field then (k, rules) :: rest
      else (k, rs) :: own_set rest field rules
  end.

(** A property found on [Object.prototype]: the [__proto__] accessor
    returns the prototype of [validators]. *)
Definition object_proto_get (p : option (list validator)) (field : string) : jsval :=
  if String.eqb field "__proto__" then
    match p with Some a => JArray a | None => JObject end
  else if existsb (String.eqb field) object_proto_methods then JFunction
  else JUndefined.

(** [validators[field]]: own property, else along the prototype chain. *)
Definition reg_get (validators : registry) (field : string) : jsval :=
  match own_lookup (own validators) field with
  | Some rules => JArray rules
  | None =>
      match proto validators with
      | None => object_proto_get None field
      | Some a =>
          match array_index field with
          | Some n => if (N.to_nat n <? length a)%nat then JFunction else JUndefined
          | None =>
              if String.eqb field "length" then JNumber (length a)
              else if existsb (String.eqb field) array_proto_methods then JFunction
              else object_proto_get (Some a) field
          end
      end
  end.

(** [validators[field]] when it is a rule list. *)
Definition reg_lookup (validators : registry) (field : string) : option (list validator) :=
  match reg_get validators field with JArray rules => Some rules | _ => None end.

(** [const addValidator = (field, newValidator) => { validators[field] = newValidator }]:
    an assignment to a key that is not an own property and is named
    [__proto__] runs the [Object.prototype] setter and replaces the
    prototype. *)
Definition addValidator (validators : registry) (field : string)
    (newValidator : list validator) : registry :=
  match own_lookup (own validators) field with
  | Some _ => Registry (own_set (own validators) field newValidator) (proto validators)
  | None =>
      if String.eqb field "__proto__" then Registry (own validators) (Some newValidator)
      else Registry (own_set (own validators) field newValidator) (proto validators)
  end.

(** [for (const rule of v)]: a [TypeError] unless [v] is an array. *)
Definition iterate (v : jsval) : M (list validator) :=
  match v with
  | JArray rules => ret rules
  | _ => ([], None)
  end.

(** [const error = await rule(value[field])] *)
Definition invoke (field : string) (i : nat) (rule : validator) (x : V) : M sf :=
  ([Call field i], match rule x with Returns e => Some e | Throws => None end).

(** The loop shared by [validateField] and [validateAll]:
    [for (const rule of rules) { const error = await rule(value[field]);
       if (error) { ...= error; break } }].
    [Some error] is the first truthy result; [None] when the loop ran to
    the end. *)
Fixpoint run_rules (field : string) (i : nat) (rules : list validator) (x : V)
  : M (option sf) :=
  match rules with
  | [] => ret None
  | rule :: rest =>
      error <- invoke field i rule x ;;
      if truthy error then ret (Some error) else run_rules field (S i) rest x
  end.

(** [{...errors}]: spreading [undefined] gives [{}]. *)
Definition spread (errors : option Errors) : Errors :=
  match errors with Some m => m | None => ∅ end.

(** The React state update: [setErrors(v)] when the handler got there. *)
Definition commit (m : M Errors) (state : option Errors) : option Errors :=
  match snd m with Some e => Some e | None => state end.

(** [const clearAll = () => { setErrors({}) }] *)
Definition clearAll (state : option Errors) : option Errors := Some ∅.

(** [const clearField = (field) => { setErrors({...errors, [field]: false}) }],
    [errors] being the render's snapshot. *)
Definition clearField (errors : option Errors) (field : string) : option Errors :=
  Some (<[field := SFalse]> (spread errors)).

(** [validateField]: [const fieldRules = validators[field]; let hasError = false;
    if (fieldRules) { for (const rule of fieldRules) {...} }], then the
    value passed to [setErrors]. *)
Definition validateField (validators : registry) (value : string -> V)
    (errors : option Errors) (field : string) : M Errors :=
  let fieldRules := reg_get validators field in
  hasError <-
    (if js_truthy fieldRules then
       rules <- iterate fieldRules ;;
       o <- run_rules field 0 rules (value field) ;;
       ret (match o with Some error => error | None => SFalse end)
     else ret SFalse) ;;
  ret (<[field := hasError]> (spread errors)).

(** The keys [for (const field in validators)] visits: the own keys, then
    the enumerable keys of an array prototype (its indices) that no own
    key shadows. *)
Definition forin_keys (validators : registry) : list string :=
  own_keys (map fst (own validators)) ++
  match proto validators with
  | None => []
  | Some a =>
      filter (fun k => k ∉ map fst (own validators))
        (map (fun i : nat => pretty i) (seq 0 (length a)))
  end.

(** The loop of [validateAll]: for each visited [field],
    [const rules = validators[field]; for (const rule of rules) {...}],
    writing [errors[field] = error] on the first failure. *)
Fixpoint validate_keys (get : string -> jsval) (value : string -> V)
    (fields : list string) (errors : Errors) : M Errors :=
  match fields with
  | [] => ret errors
  | field :: rest =>
      rules <- iterate (get field) ;;
      o <- run_rules field 0 rules (value field) ;;
      validate_keys get value rest
        (match o with Some error => <[field := error]> errors | None => errors end)
  end.

(** [validateAll]: [const errors: Errors = {}], the loops, then
    [setErrors(errors)]. *)
Definition validateAll (validators : registry) (value : string -> V) : M Errors :=
  validate_keys (reg_get validators) value (forin_keys validators) ∅.

(** The call [c] ran the rule at its position in [validators[field]],
    and that rule threw. *)
Definition call_throws (validators : registry) (value : string -> V) (c : call) : Prop :=
  exists rules rule,
    reg_get validators (call_field c) = JArray rules /\
    rules !! call_index c = Some rule /\ rule (value (call_field c)) = Throws.

(** Rule [r] has been awaited and gave a falsy result. *)
Definition passes (x : V) (r : validator) : Prop :=
  exists e, r x = Returns e /\ truthy e = false.

(** One step of the loop of [validateAll]: the rule loop of one key. *)
Definition key_run (get : string -> jsval) (value : string -> V) (field : string)
  : M (option sf) :=
  rules <- iterate (get field) ;; run_rules field 0 rules (value field).

(** The call [c] ran the rule at its position in [get (call_field c)]
    and that rule returned. *)
Definition returns_at (get : string -> jsval) (value : string -> V) (c : call) : Prop :=
  exists rules rule e,
    get (call_field c) = JArray rules /\
    rules !! call_index c = Some rule /\ rule (value (call_field c)) = Returns e.

End CForm.

Arguments Registry {V}.
Arguments own {V}.
Arguments proto {V}.
Arguments of_own {V}.
Arguments JUndefined {V}.
Arguments JArray {V}.
Arguments JFunction {V}.
Arguments JObject {V}.
Arguments JNumber {V}.
Arguments js_truthy {V}.
Arguments own_lookup {V}.
Arguments own_set {V}.
Arguments object_proto_get {V}.
Arguments reg_get {V}.
Arguments reg_lookup {V}.
Arguments addValidator {V}.
Arguments iterate {V}.
Arguments invoke {V}.
Arguments run_rules {V}.
Arguments validateField {V}.
Arguments forin_keys {V}.
Arguments validate_keys {V}.
Arguments validateAll {V}.
Arguments call_throws {V}.
Arguments passes {V}.
Arguments key_run {V}.
Arguments returns_at {V}.

Coercion of_own : list >-> registry.

(** A string of decimal digits. *)
Fixpoint all_digits (s : string) : bool :=
  match s with
  | EmptyString => true
  | String c rest => match digit_value c with Some _ => all_digits rest | None => false end
  end.
(** ** Item keys of the rendered [items]

    [items.map((item, i) => <CFormItem key={item.field ? item.field : i} .../>)]:
    the [key] is the item's [field] when it is a non-empty string, and the
    item's index otherwise.  React compares keys as strings, so a number
    key [i] is the decimal numeral of [i]. *)

(** A JavaScript key value: a string or a number. *)
Inductive jskey : Type :=
| KStr (s : string)
| KNum (n : nat).

(** [item.field ? item.field : i], [item.field] being [undefined] or a
    string. *)
Definition item_key (field : option string) (i : nat) : jskey :=
  match field with
  | Some s => if String.eqb s "" then KNum i else KStr s
  | None => KNum i
  end.

(** The key as React compares it: [String(key)]. *)
Definition key_string (k : jskey) : string :=
  match k with KStr s => s | KNum n => pretty n end.

(** The keys of [items.map(...)], from the items' [field]s. *)
Definition item_keys (fields : list (option string)) : list string :=
  imap (fun i f => key_string (item_key f i)) fields.

(** ** Concrete rules of the spec's scenarios *)

(** A [required] rule: the message ['required'] for the empty string. *)
Definition required : validator string :=
  fun x => if String.eqb x "" then Returns (SStr "required") else Returns SFalse.

(** An [isEmail] rule: passes when the value contains ['@']. *)
Definition isEmail : validator string :=
  fun x => if bool_decide (String.index 0 "@" x = None)
           then Returns (SStr "invalid email") else Returns SFalse.

(** A form value with only an [email] field ([undefined] elsewhere is
    modelled by the empty string; no rule below reads another field). *)
Definition email_value (x : string) : string -> string :=
  fun f => if String.eqb f "email" then x else "".


(** The registry of the spec's scenarios: [email] with [required] and
    [isEmail]. *)
Definition email_registry : registry string := [("email", [required; isEmail])].

(** A rule that throws whatever the value. *)
Definition boom : validator string := fun _ => Throws.

(** Field [a] throws before [email] is reached. *)
Definition throw_registry : registry string :=
  [("a", [boom]); ("email", [required])].

(** Two fields, each with the [required] rule. *)
Definition two_field_registry : registry string :=
  [("email", [required]); ("name", [required])].

(** ** Basic lemmas *)

Section Lemmas.

Variable V : Type.

Lemma bind_some {A B} (t : list call) (a : A) (k : A -> M B) :
  bind (t, Some a) k = (t ++ fst (k a), snd (k a)).
Proof. unfold bind. by destruct (k a). Qed.

Lemma bind_none {A B} (t : list call) (k : A -> M B) :
  bind (t, None) k = (t, None).
Proof. reflexivity. Qed.

Lemma own_lookup_own_set_eq (props : list (string * list (validator V))) f rules :
  own_lookup (own_set props f rules) f = Some rules.
Proof.
  induction props as [|[k rs] rest IH]; simpl.
  - by rewrite String.eqb_refl.
  - destruct (String.eqb k f) eqn:E; simpl; rewrite ?E; done.
Qed.

Lemma own_lookup_own_set_ne (props : list (string * list (validator V))) f g rules :
  g <> f -> own_lookup (own_set props f rules) g = own_lookup props g.
Proof.
  intros Hne. induction props as [|[k rs] rest IH]; simpl.
  - destruct (String.eqb f g) eqn:E; [apply String.eqb_eq in E; congruence | done].
  - destruct (String.eqb k f) eqn:E; simpl.
    + apply String.eqb_eq in E as ->.
      destruct (String.eqb f g) eqn:E'; [apply String.eqb_eq in E'; congruence | done].
    + by rewrite IH.
Qed.

Lemma own_set_own_set (props : list (string * list (validator V))) f r1 r2 :
  own_set (own_set props f r1) f r2 = own_set props f r2.
Proof.
  induction props as [|[k rs] rest IH]; simpl.
  - by rewrite String.eqb_refl.
  - destruct (String.eqb k f) eqn:E; simpl; rewrite E; [done | by rewrite IH].
Qed.

Lemma own_lookup_In (props : list (string * list (validator V))) f rules :
  own_lookup props f = Some rules -> In (f, rules) props.
Proof.
  induction props as [|[k rs] rest IH]; simpl; [done |].
  destruct (String.eqb k f) eqn:E.
  - apply String.eqb_eq in E. subst. intros [= ->]. by left.
  - intros H. right. by apply IH.
Qed.

Lemma own_lookup_None (props : list (string * list (validator V))) f :
  own_lookup props f = None <-> f ∉ map fst props.
Proof.
  induction props as [|[k rs] rest IH]; simpl.
  - split; [intros _; apply not_elem_of_nil | done].
  - rewrite not_elem_of_cons, <- IH.
    destruct (String.eqb k f) eqn:E.
    + apply String.eqb_eq in E as ->. split; [done | intros [H _]; by destruct H].
    + apply String.eqb_neq in E. split; [intros H; split; [congruence | done] | by intros [_ H]].
Qed.

Lemma NoDup_In_unique (props : list (string * list (validator V))) f r1 r2 :
  NoDup (map fst props) -> In (f, r1) props -> In (f, r2) props -> r1 = r2.
Proof.
  induction props as [|[k rs] rest IH]; simpl; [done |].
  intros Hnd H1 H2. apply NoDup_cons in Hnd as [Hk Hnd].
  assert (Hnin : forall r, In (k, r) rest -> False).
  { intros r Hr. apply Hk. apply list_elem_of_In, in_map_iff. by exists (k, r). }
  destruct H1 as [[= <- <-] | H1], H2 as [[= <-] | H2]; try done.
  - exfalso. by apply (Hnin r2).
  - exfalso. by apply (Hnin r1).
  - by apply IH.
Qed.

Lemma In_own_lookup (props : list (string * list (validator V))) f rules :
  NoDup (map fst props) -> In (f, rules) props -> own_lookup props f = Some rules.
Proof.
  intros Hnd Hin.
  destruct (own_lookup props f) as [rs|] eqn:E.
  - f_equal. apply (NoDup_In_unique props f); [done | by apply own_lookup_In | done].
  - exfalso. apply own_lookup_None in E. apply E.
    apply list_elem_of_In, in_map_iff. by exists (f, rules).
Qed.

Lemma own_set_keys (props : list (string * list (validator V))) f rules :
  map fst (own_set props f rules) =
  if decide (f ∈ map fst props) then map fst props else map fst props ++ [f].
Proof.
  induction props as [|[k rs] rest IH]; simpl.
  - destruct (decide (f ∈ [])) as [H|]; [by apply not_elem_of_nil in H | done].
  - destruct (String.eqb k f) eqn:E.
    + apply String.eqb_eq in E as ->. simpl.
      destruct (decide (f ∈ f :: map fst rest)) as [|H]; [done |].
      exfalso. apply H, elem_of_cons. by left.
    + apply String.eqb_neq in E. simpl. rewrite IH.
      destruct (decide (f ∈ map fst rest)) as [H|H],
               (decide (f ∈ k :: map fst rest)) as [H'|H']; try done.
      * exfalso. apply H', elem_of_cons. by right.
      * apply elem_of_cons in H' as [-> | H']; done.
Qed.

End Lemmas.

(** ** Numerals *)

Lemma pretty_N_go_digits x s :
  all_digits s = true -> all_digits (pretty_N_go x s) = true.
Proof.
  revert s. induction (N.lt_wf_0 x) as [x _ IH]; intros s Hs.
  assert (x = 0 ∨ 0 < x)%N as [->|?] by lia.
  - by rewrite pretty_N_go_0.
  - rewrite pretty_N_go_step by done. apply IH; [by apply N.div_lt |].
    simpl. unfold pretty_N_char. by repeat case_match.
Qed.

Lemma pretty_digits (n : nat) : all_digits (pretty n) = true.
Proof.
  change (pretty n) with (pretty_N (N.of_nat n)). unfold pretty_N.
  destruct (decide _); [done |]. by apply pretty_N_go_digits.
Qed.

Lemma pretty_not_proto (n : nat) : pretty n <> "__proto__".
Proof. intros H. pose proof (pretty_digits n) as Hd. rewrite H in Hd. discriminate. Qed.
Section RunRules.

Variable V : Type.
Variable field : string.
Variable x : V.

Lemma run_rules_cons_truthy (i : nat) (r : validator V) rest e :
  r x = Returns e -> truthy e = true ->
  run_rules field i (r :: rest) x = ([Call field i], Some (Some e)).
Proof. intros Hr Ht. cbn [run_rules]. unfold invoke. rewrite Hr, bind_some, Ht. done. Qed.

Lemma run_rules_cons_falsy (i : nat) (r : validator V) rest e :
  r x = Returns e -> truthy e = false ->
  run_rules field i (r :: rest) x =
    (Call field i :: fst (run_rules field (S i) rest x), snd (run_rules field (S i) rest x)).
Proof. intros Hr Ht. cbn [run_rules]. unfold invoke. rewrite Hr, bind_some, Ht. done. Qed.

Lemma run_rules_cons_throws (i : nat) (r : validator V) rest :
  r x = Throws -> run_rules field i (r :: rest) x = ([Call field i], None).
Proof. intros Hr. cbn [run_rules]. unfold invoke. by rewrite Hr. Qed.

(** All calls of the loop are calls of this field, at positions from [i]. *)
Lemma run_rules_calls (rules : list (validator V)) :
  forall i c, c ∈ fst (run_rules field i rules x) ->
  call_field c = field /\ i <= call_index c < i + length rules.
Proof.
  induction rules as [|r rest IH]; intros i c Hc.
  - simpl in Hc. by apply not_elem_of_nil in Hc.
  - destruct (r x) as [e|] eqn:Hr; [destruct (truthy e) eqn:He |].
    + rewrite (run_rules_cons_truthy i r rest e Hr He) in Hc. simpl in Hc.
      apply list_elem_of_singleton in Hc as ->. split; [done | simpl; lia].
    + rewrite (run_rules_cons_falsy i r rest e Hr He) in Hc. simpl in Hc.
      apply elem_of_cons in Hc as [-> | Hc]; [split; [done | simpl; lia] |].
      apply IH in Hc as [? ?]. split; [done | simpl; lia].
    + rewrite (run_rules_cons_throws i r rest Hr) in Hc. simpl in Hc.
      apply list_elem_of_singleton in Hc as ->. split; [done | simpl; lia].
Qed.

(** Every rule passes: the loop runs to the end with no error. *)
Lemma run_rules_all_pass (rules : list (validator V)) i :
  Forall (passes x) rules -> snd (run_rules field i rules x) = Some None.
Proof.
  revert i. induction rules as [|r rest IH]; intros i Hall; [done |].
  apply Forall_cons in Hall as [[e [Hr He]] Hrest].
  rewrite (run_rules_cons_falsy i r rest e Hr He). simpl. by apply IH.
Qed.

(** Rule [j] fails and every rule before it passes: the loop stops with
    rule [j]'s message. *)
Lemma run_rules_first_failure (rules : list (validator V)) j r e i :
  (forall k r', k < j -> rules !! k = Some r' -> passes x r') ->
  rules !! j = Some r -> r x = Returns e -> truthy e = true ->
  snd (run_rules field i rules x) = Some (Some e).
Proof.
  revert j i. induction rules as [|r0 rest IH]; intros j i Hbefore Hj Hr Ht; [done |].
  destruct j as [|j]; simpl in Hj.
  - injection Hj as ->. by rewrite (run_rules_cons_truthy i r rest e Hr Ht).
  - destruct (Hbefore 0 r0 ltac:(lia) eq_refl) as [e0 [Hr0 He0]].
    rewrite (run_rules_cons_falsy i r0 rest e0 Hr0 He0). simpl.
    apply (IH j); [| done | done | done].
    intros k r' Hk Hk'. apply (Hbefore (S k)); [lia | done].
Qed.


(** An error the loop reports is truthy. *)
Lemma run_rules_truthy (rules : list (validator V)) i e :
  snd (run_rules field i rules x) = Some (Some e) -> truthy e = true.
Proof.
  revert i. induction rules as [|r rest IH]; intros i H; [done |].
  destruct (r x) as [e0|] eqn:Hr.
  - destruct (truthy e0) eqn:He.
    + rewrite (run_rules_cons_truthy i r rest e0 Hr He) in H. by injection H as ->.
    + rewrite (run_rules_cons_falsy i r rest e0 Hr He) in H. by apply (IH (S i)).
  - by rewrite (run_rules_cons_throws i r rest Hr) in H.
Qed.


(** The calls of a loop that stops at rule [j]: rules [i .. i + j]. *)
Lemma run_rules_trace_first_failure (rules : list (validator V)) j r e i :
  (forall k r', k < j -> rules !! k = Some r' -> passes x r') ->
  rules !! j = Some r -> r x = Returns e -> truthy e = true ->
  fst (run_rules field i rules x) = map (Call field) (seq i (S j)).
Proof.
  revert j i. induction rules as [|r0 rest IH]; intros j i Hbefore Hj Hr Ht; [done |].
  destruct j as [|j]; simpl in Hj.
  - injection Hj as ->. by rewrite (run_rules_cons_truthy i r rest e Hr Ht).
  - destruct (Hbefore 0 r0 ltac:(lia) eq_refl) as [e0 [Hr0 He0]].
    rewrite (run_rules_cons_falsy i r0 rest e0 Hr0 He0). simpl.
    f_equal. apply (IH j); [| done | done | done].
    intros k r' Hk Hk'. apply (Hbefore (S k)); [lia | done].
Qed.

(** The calls of a loop in which every rule passes: all of them, in order. *)
Lemma run_rules_trace_all_pass (rules : list (validator V)) i :
  Forall (passes x) rules ->
  fst (run_rules field i rules x) = map (Call field) (seq i (length rules)).
Proof.
  revert i. induction rules as [|r rest IH]; intros i Hall; [done |].
  apply Forall_cons in Hall as [[e [Hr He]] Hrest].
  rewrite (run_rules_cons_falsy i r rest e Hr He). simpl. f_equal. by apply IH.
Qed.

(** No rule is invoked twice by one loop. *)
Lemma run_rules_NoDup (rules : list (validator V)) i :
  NoDup (fst (run_rules field i rules x)).
Proof.
  revert i. induction rules as [|r rest IH]; intros i; [constructor |].
  destruct (r x) as [e|] eqn:Hr; [destruct (truthy e) eqn:He |].
  - rewrite (run_rules_cons_truthy i r rest e Hr He). apply NoDup_singleton.
  - rewrite (run_rules_cons_falsy i r rest e Hr He). simpl.
    apply NoDup_cons. split; [| apply IH].
    intros Hc. apply (run_rules_calls rest (S i)) in Hc as [_ Hc]. simpl in Hc. lia.
  - rewrite (run_rules_cons_throws i r rest Hr). apply NoDup_singleton.
Qed.


(** A loop that completes: each of its calls ran a rule that returned.  A
    loop that throws: the same holds of every call but the last. *)
Lemma run_rules_returned (rules : list (validator V)) i :
  (snd (run_rules field i rules x) <> None ->
   forall c, c ∈ fst (run_rules field i rules x) ->
   exists r e, rules !! (call_index c - i) = Some r /\ r x = Returns e) /\
  (snd (run_rules field i rules x) = None ->
   exists pre c', fst (run_rules field i rules x) = pre ++ [c'] /\
   forall c, c ∈ pre -> exists r e, rules !! (call_index c - i) = Some r /\ r x = Returns e).
Proof.
  revert i. induction rules as [|r rest IH]; intros i.
  - split; [intros _ c Hc; simpl in Hc; by apply not_elem_of_nil in Hc | done].
  - destruct (r x) as [e|] eqn:Hr; [destruct (truthy e) eqn:He |].
    + rewrite (run_rules_cons_truthy i r rest e Hr He). simpl. split; [| done].
      intros _ c Hc. apply list_elem_of_singleton in Hc as ->. simpl.
      rewrite Nat.sub_diag. by exists r, e.
    + rewrite (run_rules_cons_falsy i r rest e Hr He). simpl.
      destruct (IH (S i)) as [IH1 IH2].
      assert (Hstep : forall c, c ∈ fst (run_rules field (S i) rest x) ->
                (exists r' e', rest !! (call_index c - S i) = Some r' /\ r' x = Returns e') ->
                exists r' e', (r :: rest) !! (call_index c - i) = Some r' /\ r' x = Returns e').
      { intros c Hc (r' & e' & Hr' & He'). exists r', e'.
        apply run_rules_calls in Hc as [_ Hi].
        replace (call_index c - i) with (S (call_index c - S i)) by lia. done. }
      split.
      * intros Hn c Hc. apply elem_of_cons in Hc as [-> | Hc].
        -- simpl. rewrite Nat.sub_diag. by exists r, e.
        -- apply Hstep; [done | by apply IH1].
      * intros Hn. destruct (IH2 Hn) as (pre & c' & Htr & Hpre).
        exists (Call field i :: pre), c'. rewrite Htr. split; [done |].
        intros c Hc. apply elem_of_cons in Hc as [-> | Hc].
        -- simpl. rewrite Nat.sub_diag. by exists r, e.
        -- apply Hstep; [| by apply Hpre]. rewrite Htr. apply elem_of_app. by left.
    + rewrite (run_rules_cons_throws i r rest Hr). simpl. split; [done |].
      intros _. exists [], (Call field i). split; [done |].
      intros c Hc. by apply not_elem_of_nil in Hc.
Qed.

End RunRules.

(** ** The key loop of [validateAll] *)

Section Keys.

Variable V : Type.
Variable get : string -> jsval V.
Variable value : string -> V.

Lemma get_array_dec k :
  {rules | get k = JArray rules} + (forall rules, get k <> JArray rules).
Proof. destruct (get k) as [|rules| | |n]; [right | left; by exists rules | right..]; done. Qed.

Lemma key_run_array k rules :
  get k = JArray rules -> key_run get value k = run_rules k 0 rules (value k).
Proof.
  intros H. unfold key_run. rewrite H. unfold iterate, ret. rewrite bind_some.
  by destruct (run_rules k 0 rules (value k)).
Qed.

Lemma key_run_not_array k :
  (forall rules, get k <> JArray rules) -> key_run get value k = ([], None).
Proof.
  intros H. unfold key_run.
  destruct (get k) as [|rules| | |n] eqn:E; try reflexivity. by destruct (H rules).
Qed.

Lemma key_run_some_array k t o :
  key_run get value k = (t, Some o) -> exists rules, get k = JArray rules.
Proof.
  unfold key_run. destruct (get k) as [|rules| | |n]; simpl; try discriminate. by eexists.
Qed.

Lemma key_run_calls k c :
  c ∈ fst (key_run get value k) ->
  call_field c = k /\ exists rules, get k = JArray rules /\ call_index c < length rules.
Proof.
  destruct (get_array_dec k) as [[rules Hk] | Hn].
  - rewrite (key_run_array k rules Hk). intros Hc.
    apply run_rules_calls in Hc as [Hf Hi]. split; [done |]. exists rules. split; [done | lia].
  - rewrite (key_run_not_array k Hn).
    simpl. intros Hc. by apply not_elem_of_nil in Hc.
Qed.

Lemma key_run_NoDup k : NoDup (fst (key_run get value k)).
Proof.
  destruct (get_array_dec k) as [[rules Hk] | Hn].
  - rewrite (key_run_array k rules Hk). apply run_rules_NoDup.
  - rewrite (key_run_not_array k Hn). constructor.
Qed.

Lemma key_run_returned k :
  (snd (key_run get value k) <> None ->
   forall c, c ∈ fst (key_run get value k) -> returns_at get value c) /\
  (snd (key_run get value k) = None ->
   exists pre tail, fst (key_run get value k) = pre ++ tail /\
     (forall c, c ∈ pre -> returns_at get value c) /\ length tail <= 1).
Proof.
  destruct (get_array_dec k) as [[rules Hk] | Hn].
  - rewrite (key_run_array k rules Hk).
    destruct (run_rules_returned V k (value k) rules 0) as [H1 H2].
    assert (Hret : forall c, c ∈ fst (run_rules k 0 rules (value k)) ->
              (exists r e, rules !! (call_index c - 0) = Some r /\ r (value k) = Returns e) ->
              returns_at get value c).
    { intros c Hc (r & e & Hr & He). apply run_rules_calls in Hc as [Hf _].
      exists rules, r, e. rewrite Hf, Nat.sub_0_r in *. done. }
    split.
    + intros Hs c Hc. apply Hret; [done | by apply H1].
    + intros Hs. destruct (H2 Hs) as (pre & c' & Htr & Hpre).
      exists pre, [c']. split; [done | split; [| simpl; lia]].
      intros c Hc. apply Hret; [| by apply Hpre]. rewrite Htr. apply elem_of_app. by left.
  - rewrite (key_run_not_array k Hn).
    split; [done |]. intros _. exists [], []. split; [done | split; [| simpl; lia]].
    intros c Hc. by apply not_elem_of_nil in Hc.
Qed.

Lemma validate_keys_cons k rest acc :
  validate_keys get value (k :: rest) acc =
  match key_run get value k with
  | (t, Some o) =>
      let acc' := match o with Some e => <[k := e]> acc | None => acc end in
      (t ++ fst (validate_keys get value rest acc'), snd (validate_keys get value rest acc'))
  | (t, None) => (t, None)
  end.
Proof.
  cbn [validate_keys]. unfold key_run.
  destruct (get k) as [|rules| | |n]; try reflexivity.
  unfold iterate, ret. rewrite !bind_some. cbn [fst snd app].
  destruct (run_rules k 0 rules (value k)) as [t [o|]];
    [rewrite !bind_some | rewrite !bind_none]; reflexivity.
Qed.

Ltac step_key k E :=
  rewrite validate_keys_cons; destruct (key_run get value k) as [t [o|]] eqn:E; cbn zeta.

(** A key the loop does not visit keeps its entry. *)
Lemma validate_keys_frame keys acc m f :
  f ∉ keys -> snd (validate_keys get value keys acc) = Some m -> m !! f = acc !! f.
Proof.
  revert acc. induction keys as [|k rest IH]; intros acc Hf H.
  - simpl in H. by injection H as <-.
  - apply not_elem_of_cons in Hf as [Hne Hf].
    revert H. step_key k E; simpl; intros H; [| done].
    rewrite (IH _ Hf H). destruct o; [| done]. by rewrite lookup_insert_ne.
Qed.

(** A visited key: its entry is the outcome of its own rule loop. *)
Lemma validate_keys_entry keys acc m f :
  f ∈ keys -> snd (validate_keys get value keys acc) = Some m ->
  exists o, snd (key_run get value f) = Some o /\
    m !! f = match o with Some e => Some e | None => acc !! f end.
Proof.
  revert acc. induction keys as [|k rest IH]; intros acc Hf H.
  - by apply not_elem_of_nil in Hf.
  - revert H. step_key k E; simpl; intros H; [| done].
    destruct (decide (f ∈ rest)) as [Hin | Hnin].
    + destruct (IH _ Hin H) as (o' & Ho' & Hm). exists o'. split; [done |]. rewrite Hm.
      destruct (decide (k = f)) as [-> | Hne].
      * rewrite E in Ho'. simpl in Ho'. injection Ho' as <-.
        destruct o; simpl; rewrite ?lookup_insert_eq; done.
      * destruct o', o; simpl; rewrite ?lookup_insert_ne; done.
    + apply elem_of_cons in Hf as [<- | Hf]; [| done].
      exists o. rewrite E. split; [done |].
      rewrite (validate_keys_frame rest _ m f Hnin H).
      destruct o; [apply lookup_insert_eq | done].
Qed.

(** Keys of the result come from the initial mapping or from a visited
    key whose rule loop reported a message. *)
Lemma validate_keys_keys keys acc m f :
  snd (validate_keys get value keys acc) = Some m -> is_Some (m !! f) ->
  is_Some (acc !! f) \/ (f ∈ keys /\ exists e, snd (key_run get value f) = Some (Some e)).
Proof.
  revert acc. induction keys as [|k rest IH]; intros acc H Hf.
  - simpl in H. injection H as <-. by left.
  - revert H. step_key k E; simpl; intros H; [| done].
    destruct (IH _ H Hf) as [Hacc | [Hin He]].
    + destruct o as [e|]; [| by left].
      destruct (decide (k = f)) as [-> | Hne].
      * right. split; [apply elem_of_cons; by left |]. exists e. by rewrite E.
      * left. by rewrite lookup_insert_ne in Hacc.
    + right. split; [apply elem_of_cons; by right | done].
Qed.

(** The loop throws exactly when the rule loop of one of the keys
    throws. *)
Lemma validate_keys_None_iff keys acc :
  snd (validate_keys get value keys acc) = None <->
  exists k, k ∈ keys /\ snd (key_run get value k) = None.
Proof.
  revert acc. induction keys as [|k rest IH]; intros acc.
  - simpl. split; [done | intros (? & Hk & _); by apply not_elem_of_nil in Hk].
  - step_key k E; simpl.
    + rewrite IH. split.
      * intros (f & Hin & Hn). exists f. split; [apply elem_of_cons; by right | done].
      * intros (f & Hin & Hn). apply elem_of_cons in Hin as [-> | Hin]; [by rewrite E in Hn |].
        by exists f.
    + split; [intros _ | done]. exists k. rewrite E. split; [apply elem_of_cons; by left | done].
Qed.

(** Each call of the loop is a call of the rule loop of a visited key. *)
Lemma validate_keys_calls keys acc c :
  c ∈ fst (validate_keys get value keys acc) ->
  call_field c ∈ keys /\ c ∈ fst (key_run get value (call_field c)).
Proof.
  revert acc. induction keys as [|k rest IH]; intros acc Hc.
  - simpl in Hc. by apply not_elem_of_nil in Hc.
  - assert (Hk : c ∈ fst (key_run get value k) ->
              call_field c ∈ k :: rest /\ c ∈ fst (key_run get value (call_field c))).
    { intros Hc'. destruct (key_run_calls k c Hc') as [-> _].
      split; [apply elem_of_cons; by left | done]. }
    revert Hc. step_key k E; simpl; intros Hc.
    + apply elem_of_app in Hc as [Hc | Hc]; [by apply Hk |].
      destruct (IH _ Hc) as [Hin Hc']. split; [apply elem_of_cons; by right | done].
    + by apply Hk.
Qed.

(** No rule is invoked twice by a loop over distinct keys. *)
Lemma validate_keys_NoDup keys acc :
  NoDup keys -> NoDup (fst (validate_keys get value keys acc)).
Proof.
  revert acc. induction keys as [|k rest IH]; intros acc Hnd; [constructor |].
  apply NoDup_cons in Hnd as [Hk Hnd].
  pose proof (key_run_NoDup k) as Hrr.
  step_key k E; simpl; simpl in Hrr; [| done].
  apply NoDup_app. split; [done | split; [| by apply IH]].
  intros c Hc Hc'.
  assert (Hc0 : c ∈ fst (key_run get value k)) by by rewrite E.
  destruct (key_run_calls k c Hc0) as [Hf _].
  destruct (validate_keys_calls rest _ c Hc') as [Hin _].
  apply Hk. by rewrite <- Hf.
Qed.

(** Every entry the loop adds is a truthy message. *)
Lemma validate_keys_truthy keys acc m :
  (forall f e, acc !! f = Some e -> truthy e = true) ->
  snd (validate_keys get value keys acc) = Some m ->
  forall f e, m !! f = Some e -> truthy e = true.
Proof.
  revert acc. induction keys as [|k rest IH]; intros acc Hacc H.
  - simpl in H. by injection H as <-.
  - revert H. step_key k E; simpl; intros H; [| done].
    eapply IH; [| exact H]. destruct o as [e0|]; [| done].
    assert (He0 : truthy e0 = true).
    { destruct (key_run_some_array k t _ E) as [rules Hr].
      rewrite (key_run_array k rules Hr) in E.
      apply (run_rules_truthy V k (value k) rules 0). by rewrite E. }
    intros f e Hf. destruct (decide (k = f)) as [-> | Hne].
    + rewrite lookup_insert_eq in Hf. by injection Hf as <-.
    + rewrite lookup_insert_ne in Hf; [by apply (Hacc f) | done].
Qed.

(** A loop that completes: each of its calls ran a rule that returned.  A
    loop that throws: the same holds of every call but at most the last. *)
Lemma validate_keys_returned keys acc :
  (snd (validate_keys get value keys acc) <> None ->
   forall c, c ∈ fst (validate_keys get value keys acc) -> returns_at get value c) /\
  (snd (validate_keys get value keys acc) = None ->
   exists pre tail, fst (validate_keys get value keys acc) = pre ++ tail /\
     (forall c, c ∈ pre -> returns_at get value c) /\ length tail <= 1).
Proof.
  revert acc. induction keys as [|k rest IH]; intros acc.
  - split; [intros _ c Hc; simpl in Hc; by apply not_elem_of_nil in Hc | done].
  - destruct (key_run_returned k) as [K1 K2].
    step_key k E; simpl; simpl in K1, K2.
    + assert (Ht : forall c, c ∈ t -> returns_at get value c) by (apply K1; done).
      destruct (IH (match o with Some e => <[k:=e]> acc | None => acc end)) as [I1 I2].
      split.
      * intros Hs c Hc. apply elem_of_app in Hc as [Hc | Hc]; [by apply Ht | by apply I1].
      * intros Hs. destruct (I2 Hs) as (pre & tail & Htr & Hpre & Hl).
        exists (t ++ pre), tail. rewrite Htr, app_assoc. split; [done | split; [| done]].
        intros c Hc. apply elem_of_app in Hc as [Hc | Hc]; [by apply Ht | by apply Hpre].
    + split; [done |]. intros _. by apply K2.
Qed.

(** The outcome of the loop does not depend on the order of the keys. *)
Lemma validate_keys_perm keys1 keys2 acc :
  keys1 ≡ₚ keys2 ->
  snd (validate_keys get value keys1 acc) = snd (validate_keys get value keys2 acc).
Proof.
  intros Hp.
  destruct (snd (validate_keys get value keys1 acc)) as [m1|] eqn:H1,
           (snd (validate_keys get value keys2 acc)) as [m2|] eqn:H2.
  - f_equal. apply map_eq. intros f.
    destruct (decide (f ∈ keys1)) as [Hin | Hnin].
    + assert (Hin2 : f ∈ keys2) by by rewrite <- Hp.
      destruct (validate_keys_entry keys1 acc m1 f Hin H1) as (o1 & Ho1 & E1).
      destruct (validate_keys_entry keys2 acc m2 f Hin2 H2) as (o2 & Ho2 & E2).
      rewrite Ho1 in Ho2. injection Ho2 as <-. by rewrite E1, E2.
    + assert (Hnin2 : f ∉ keys2) by by rewrite <- Hp.
      rewrite (validate_keys_frame keys1 acc m1 f Hnin H1).
      by rewrite (validate_keys_frame keys2 acc m2 f Hnin2 H2).
  - apply validate_keys_None_iff in H2 as (f & Hin & Hn).
    assert (H : snd (validate_keys get value keys1 acc) = None).
    { apply validate_keys_None_iff. exists f. split; [by rewrite Hp | done]. }
    by rewrite H in H1.
  - apply validate_keys_None_iff in H1 as (f & Hin & Hn).
    assert (H : snd (validate_keys get value keys2 acc) = None).
    { apply validate_keys_None_iff. exists f. split; [by rewrite <- Hp | done]. }
    by rewrite H in H2.
  - done.
Qed.

End Keys.

(** ** The registry object *)

Lemma NoDup_map_inj {A B} (f : A -> B) (l : list A) :
  (forall x y, f x = f y -> x = y) -> NoDup l -> NoDup (map f l).
Proof.
  intros Hf. induction 1 as [|x l Hx Hl IH]; simpl; constructor; [| done].
  intros Hin. apply list_elem_of_In, in_map_iff in Hin as (y & Hy & Hin).
  apply Hf in Hy as ->. apply Hx, list_elem_of_In, Hin.
Qed.

Lemma insert_index_perm k n (l : list (string * N)) :
  map fst (insert_index k n l) ≡ₚ k :: map fst l.
Proof.
  induction l as [|[k' n'] rest IH]; simpl; [done |].
  destruct (n <? n')%N; simpl; [done |]. rewrite IH. apply perm_swap.
Qed.

(** [for ... in] reorders the own keys, and only reorders them. *)
Lemma own_keys_perm ks : own_keys ks ≡ₚ ks.
Proof.
  unfold own_keys. induction ks as [|k rest IH]; [done |].
  cbn [index_keys]. rewrite filter_cons. destruct (array_index k) as [n|] eqn:E.
  - rewrite insert_index_perm. rewrite decide_False by (intros ?; discriminate).
    cbn [app]. by rewrite IH.
  - rewrite decide_True by done. rewrite <- Permutation_middle. by rewrite IH.
Qed.

Lemma index_keys_app_not_index ks f :
  array_index f = None -> index_keys (ks ++ [f]) = index_keys ks.
Proof.
  intros Hf. induction ks as [|k rest IH]; simpl; [by rewrite Hf |].
  by rewrite IH.
Qed.

Section Registry.

Variable V : Type.

Lemma forin_keys_elem (reg : registry V) k :
  k ∈ forin_keys reg ->
  (k ∈ map fst (own reg)) \/ ((k ∉ map fst (own reg)) /\ (exists i : nat, k = pretty i)).
Proof.
  unfold forin_keys. rewrite elem_of_app. intros [H | H].
  - left. by rewrite own_keys_perm in H.
  - right. destruct (proto reg) as [a|]; [| by apply not_elem_of_nil in H].
    apply list_elem_of_filter in H as [Hn H]. split; [done |].
    apply list_elem_of_In, in_map_iff in H as (i & <- & _). by exists i.
Qed.

Lemma own_in_forin (reg : registry V) k :
  k ∈ map fst (own reg) -> k ∈ forin_keys reg.
Proof. intros H. unfold forin_keys. apply elem_of_app. left. by rewrite own_keys_perm. Qed.

Lemma forin_keys_NoDup (reg : registry V) :
  NoDup (map fst (own reg)) -> NoDup (forin_keys reg).
Proof.
  intros Hnd. unfold forin_keys. apply NoDup_app. split; [by rewrite own_keys_perm |]. split.
  - intros k Hk Hk'. rewrite own_keys_perm in Hk.
    destruct (proto reg); [| by apply not_elem_of_nil in Hk'].
    by apply list_elem_of_filter in Hk' as [Hn _].
  - destruct (proto reg) as [a|]; [| constructor].
    apply NoDup_filter. apply NoDup_map_inj; [| apply NoDup_seq].
    intros x y. apply (inj pretty).
Qed.

Lemma reg_get_own (reg : registry V) f rules :
  NoDup (map fst (own reg)) -> In (f, rules) (own reg) -> reg_get reg f = JArray rules.
Proof. intros Hnd Hin. unfold reg_get. by rewrite (In_own_lookup V _ _ _ Hnd Hin). Qed.

Lemma object_proto_get_not_array p f (rules : list (validator V)) :
  f <> "__proto__" -> object_proto_get p f <> JArray rules.
Proof.
  intros Hf. unfold object_proto_get.
  destruct (String.eqb f "__proto__") eqn:E; [apply String.eqb_eq in E; congruence |].
  by destruct (existsb _ _).
Qed.

(** Only an own property, or [__proto__], can give a rule list. *)
Lemma reg_get_not_own (reg : registry V) f rules :
  f ∉ map fst (own reg) -> f <> "__proto__" -> reg_get reg f <> JArray rules.
Proof.
  intros Hn Hf. unfold reg_get. apply own_lookup_None in Hn. rewrite Hn.
  destruct (proto reg) as [a|]; [| by apply object_proto_get_not_array].
  destruct (array_index f); [by case_match |].
  destruct (String.eqb f "length"); [done |].
  destruct (existsb _ _); [done |]. by apply object_proto_get_not_array.
Qed.

(** A key visited by [for ... in] that holds a rule list is an own key. *)
Lemma forin_array_own (reg : registry V) k rules :
  k ∈ forin_keys reg -> reg_get reg k = JArray rules -> k ∈ map fst (own reg).
Proof.
  intros Hk Hg. destruct (forin_keys_elem reg k Hk) as [H | [Hn [i ->]]]; [done |].
  exfalso. by apply (reg_get_not_own reg (pretty i) rules Hn (pretty_not_proto i)).
Qed.

Lemma reg_get_array_In (reg : registry V) f rules :
  f ∈ map fst (own reg) -> reg_get reg f = JArray rules -> In (f, rules) (own reg).
Proof.
  intros Hin Hg. unfold reg_get in Hg.
  destruct (own_lookup (own reg) f) eqn:E.
  - injection Hg as ->. by apply own_lookup_In.
  - by apply own_lookup_None in E.
Qed.

(** [validateField] in closed form. *)
Lemma validateField_eq (reg : registry V) value errors f :
  validateField reg value errors f =
  match reg_get reg f with
  | JArray rules =>
      match run_rules f 0 rules (value f) with
      | (t, Some o) =>
          (t, Some (<[f := match o with Some e => e | None => SFalse end]> (spread errors)))
      | (t, None) => (t, None)
      end
  | v => if js_truthy v then ([], None) else ([], Some (<[f := SFalse]> (spread errors)))
  end.
Proof.
  unfold validateField.
  destruct (reg_get reg f) as [|rules| | |[|n]]; try reflexivity.
  cbn [js_truthy iterate]. unfold ret at 1. rewrite bind_some. cbn [fst snd app].
  destruct (run_rules f 0 rules (value f)) as [t [o|]];
    [rewrite !bind_some | rewrite !bind_none]; cbn; rewrite ?app_nil_r; reflexivity.
Qed.

End Registry.

(** ** Claims about [validateAll] *)

(** C1 (counterexample): value [{email: 'a@b.com'}], both rules pass, yet
    [validateAll] produces [{}], not [{email: false}]: the passing field
    gets no entry at all. *)
Lemma validateAll_passing_field_no_entry :
  snd (validateAll email_registry (email_value "a@b.com")) = Some ∅ /\
  ~ (exists m, snd (validateAll email_registry (email_value "a@b.com")) = Some m /\
       m !! "email" = Some SFalse).
Proof.
  assert (H : snd (validateAll email_registry (email_value "a@b.com")) = Some ∅)
    by (vm_compute; reflexivity).
  split; [exact H |]. intros (m & Hm & He). rewrite H in Hm. injection Hm as <-.
  rewrite lookup_empty in He. discriminate.
Qed.

(** After [validateAll] completes, the entry of a registered field. *)
Lemma validate_all_registered_entry {V} (reg : registry V) value f rules m :
  NoDup (map fst reg) -> In (f, rules) reg ->
  snd (validateAll reg value) = Some m ->
  (Forall (passes (value f)) rules -> m !! f = None) /\
  (forall j r e,
     (forall k r', k < j -> rules !! k = Some r' -> passes (value f) r') ->
     rules !! j = Some r -> r (value f) = Returns e -> truthy e = true ->
     m !! f = Some e).
Proof.
  intros Hnd Hin Hm.
  pose proof (reg_get_own V reg f rules Hnd Hin) as Hg.
  assert (Hk : f ∈ forin_keys reg).
  { apply own_in_forin, list_elem_of_In, in_map_iff. by exists (f, rules). }
  destruct (validate_keys_entry V (reg_get reg) value _ ∅ m f Hk Hm) as (o & Ho & Hf).
  rewrite (key_run_array V _ value f rules Hg) in Ho.
  split.
  - intros Hall. rewrite (run_rules_all_pass V f (value f) rules 0 Hall) in Ho.
    injection Ho as <-. rewrite Hf. apply lookup_empty.
  - intros j r e Hbefore Hj Hr Ht.
    rewrite (run_rules_first_failure V f (value f) rules j r e 0 Hbefore Hj Hr Ht) in Ho.
    injection Ho as <-. done.
Qed.

(** C1 (amended): after [validateAll] completes, a registered field's
    entry is the message of its first failing rule; when all its rules
    pass the field has no entry. *)
Theorem validateAll_entry {V} (reg : registry V) value f rules m :
  NoDup (map fst reg) -> In (f, rules) reg ->
  snd (validateAll reg value) = Some m ->
  (Forall (passes (value f)) rules -> m !! f = None) /\
  (forall j r e,
     (forall k r', k < j -> rules !! k = Some r' -> passes (value f) r') ->
     rules !! j = Some r -> r (value f) = Returns e -> truthy e = true ->
     m !! f = Some e).
Proof. apply validate_all_registered_entry. Qed.

(** C2: the first rule of a field fails with a truthy message: the
    message is recorded and no later rule of that field is invoked, both
    by [validateField] and by [validateAll]. *)
Theorem first_failure_wins {V} (reg : registry V) value errors f r1 rs e :
  NoDup (map fst reg) -> In (f, r1 :: rs) reg ->
  r1 (value f) = Returns e -> truthy e = true ->
  validateField reg value errors f = ([Call f 0], Some (<[f := e]> (spread errors))) /\
  (forall c, c ∈ fst (validateAll reg value) -> call_field c = f -> call_index c = 0) /\
  (forall m, snd (validateAll reg value) = Some m -> m !! f = Some e).
Proof.
  intros Hnd Hin Hr Ht.
  pose proof (reg_get_own V reg f _ Hnd Hin) as Hg. split; [| split].
  - rewrite validateField_eq, Hg.
    rewrite (run_rules_cons_truthy V f (value f) 0 r1 rs e Hr Ht). done.
  - intros c Hc Hf.
    destruct (validate_keys_calls V (reg_get reg) value _ ∅ c Hc) as [_ Hc'].
    rewrite Hf, (key_run_array V _ value f _ Hg) in Hc'.
    rewrite (run_rules_cons_truthy V f (value f) 0 r1 rs e Hr Ht) in Hc'.
    simpl in Hc'. apply list_elem_of_singleton in Hc' as ->. done.
  - intros m Hm.
    apply (proj2 (validate_all_registered_entry reg value f (r1 :: rs) m Hnd Hin Hm) 0 r1 e);
      [| done | done | done].
    intros k r' Hk. lia.
Qed.

(** C3: a validator invoked by [validateAll] throws: the exception
    propagates out of [validateAll], the throwing call is the last call
    made, and the error state is left as it was. *)
Theorem validateAll_throw_atomic {V} (reg : registry V) value c :
  c ∈ fst (validateAll reg value) -> call_throws reg value c ->
  snd (validateAll reg value) = None /\
  (forall state, commit (validateAll reg value) state = state) /\
  exists pre, fst (validateAll reg value) = pre ++ [c].
Proof.
  intros Hc (rules & r & Hg & Hr & Hth).
  assert (Hnot : ~ returns_at (reg_get reg) value c).
  { intros (rules' & r' & e & Hg' & Hr' & He). rewrite Hg in Hg'. injection Hg' as <-.
    rewrite Hr in Hr'. injection Hr' as <-. congruence. }
  unfold validateAll in *.
  destruct (validate_keys_returned V (reg_get reg) value (forin_keys reg) ∅) as [H1 H2].
  assert (Hs : snd (validate_keys (reg_get reg) value (forin_keys reg) ∅) = None).
  { destruct (snd (validate_keys (reg_get reg) value (forin_keys reg) ∅)) eqn:E; [| done].
    exfalso. apply Hnot. apply H1; [done | exact Hc]. }
  split; [done | split; [intros state; unfold commit; by rewrite Hs |]].
  destruct (H2 Hs) as (pre & tail & Htr & Hpre & Hl). exists pre. rewrite Htr.
  rewrite Htr in Hc. apply elem_of_app in Hc as [Hc | Hc]; [by destruct Hnot; apply Hpre |].
  destruct tail as [|c' [|c'' tail]]; simpl in Hl; [by apply not_elem_of_nil in Hc | | lia].
  by apply list_elem_of_singleton in Hc as ->.
Qed.

(** C4: a completed [validateAll] replaces the error state with a mapping
    whose keys are all registered fields, whatever the state held before. *)
Theorem validateAll_replaces {V} (reg : registry V) value m :
  snd (validateAll reg value) = Some m ->
  (forall state, commit (validateAll reg value) state = Some m) /\
  (forall f, is_Some (m !! f) -> f ∈ map fst reg).
Proof.
  intros H. split.
  - intros state. unfold commit. by rewrite H.
  - intros f Hf. unfold validateAll in H.
    destruct (validate_keys_keys V (reg_get reg) value _ ∅ m f H Hf) as [Hacc | [Hin (e & He)]].
    + rewrite lookup_empty in Hacc. by destruct Hacc.
    + destruct (key_run (reg_get reg) value f) as [t o] eqn:E. simpl in He. subst o.
      destruct (key_run_some_array V _ value f t _ E) as [rules Hg].
      by apply (forin_array_own V reg f rules).
Qed.

(** C5: a field with no rules (unregistered, or registered with an empty
    list) gets no entry from [validateAll]. *)
Theorem validateAll_no_rules_no_entry {V} (reg : registry V) value f state :
  NoDup (map fst reg) ->
  reg_lookup reg f = None \/ reg_lookup reg f = Some [] ->
  commit (validateAll reg value) state = state \/
  exists m, commit (validateAll reg value) state = Some m /\ m !! f = None.
Proof.
  intros Hnd Hf. unfold commit.
  destruct (snd (validateAll reg value)) as [m|] eqn:Hm; [right | by left].
  exists m. split; [done |]. unfold validateAll in Hm.
  destruct (decide (f ∈ forin_keys reg)) as [Hin | Hnin].
  - destruct (validate_keys_entry V (reg_get reg) value _ ∅ m f Hin Hm) as (o & Ho & Ef).
    destruct (key_run (reg_get reg) value f) as [t o'] eqn:E. simpl in Ho. subst o'.
    destruct (key_run_some_array V _ value f t _ E) as [rules Hg].
    unfold reg_lookup in Hf. rewrite Hg in Hf.
    destruct Hf as [Hf | Hf]; [discriminate | injection Hf as ->].
    rewrite (key_run_array V _ value f [] Hg) in E. simpl in E.
    injection E as _ <-. rewrite Ef. apply lookup_empty.
  - rewrite (validate_keys_frame V (reg_get reg) value _ ∅ m f Hnin Hm). apply lookup_empty.
Qed.

(** ** Claims about the other handlers *)

(** C6: [clearField f] sets [f]'s entry to [false] and keeps every other
    entry of the error state it was rendered with. *)
Theorem clearField_frame (errors : option Errors) f g :
  spread (clearField errors f) !! g =
  if String.eqb g f then Some SFalse else spread errors !! g.
Proof.
  unfold clearField. simpl. destruct (String.eqb g f) eqn:E.
  - apply String.eqb_eq in E as ->. apply lookup_insert_eq.
  - apply String.eqb_neq in E. rewrite lookup_insert_ne; [done | congruence].
Qed.

(** C7: after [clearAll] the error state is the empty mapping. *)
Theorem clearAll_empty (state : option Errors) f :
  clearAll state = Some ∅ /\ spread (clearAll state) !! f = None.
Proof. split; [done | apply lookup_empty]. Qed.

(** Registering twice is registering the second list. *)
Lemma addValidator_twice {V} (reg : registry V) f r1 r2 :
  addValidator (addValidator reg f r1) f r2 = addValidator reg f r2.
Proof.
  unfold addValidator. destruct (own_lookup (own reg) f) eqn:E; cbn [own proto].
  - rewrite own_lookup_own_set_eq. by rewrite own_set_own_set.
  - destruct (String.eqb f "__proto__") eqn:Ep; cbn [own proto].
    + by rewrite E.
    + rewrite own_lookup_own_set_eq. by rewrite own_set_own_set.
Qed.

(** After [addValidator f rules], [validators[f]] is [rules]. *)
Lemma addValidator_lookup_eq {V} (reg : registry V) f rules :
  reg_lookup (addValidator reg f rules) f = Some rules.
Proof.
  unfold addValidator, reg_lookup, reg_get.
  destruct (own_lookup (own reg) f) eqn:E; cbn [own proto].
  - by rewrite own_lookup_own_set_eq.
  - destruct (String.eqb f "__proto__") eqn:Ep; cbn [own proto].
    + apply String.eqb_eq in Ep as ->. rewrite E. reflexivity.
    + by rewrite own_lookup_own_set_eq.
Qed.

(** C8: registering a field twice keeps only the second rule list. *)
Theorem addValidator_last_wins {V} (reg : registry V) f r1 r2 :
  addValidator (addValidator reg f r1) f r2 = addValidator reg f r2 /\
  reg_lookup (addValidator (addValidator reg f r1) f r2) f = Some r2.
Proof.
  split; [apply addValidator_twice |].
  rewrite addValidator_twice. apply addValidator_lookup_eq.
Qed.

(** C9: value [{email: ''}] with the [required] rule: [validateAll]
    sets the error state to [{email: 'required'}]. *)
Theorem validateAll_required_scenario (state : option Errors) :
  validateAll [("email", [required])] (email_value "") =
    ([Call "email" 0], Some {[ "email" := SStr "required" ]}) /\
  commit (validateAll [("email", [required])] (email_value "")) state =
    Some {[ "email" := SStr "required" ]}.
Proof.
  assert (H : validateAll [("email", [required])] (email_value "") =
                ([Call "email" 0], Some {[ "email" := SStr "required" ]}))
    by (vm_compute; reflexivity).
  split; [exact H | unfold commit; by rewrite H].
Qed.



(** ** Further properties of the handlers *)


(** An unregistered key other than [__proto__] gives no rule list. *)
Lemma reg_lookup_not_own {V} (reg : registry V) g :
  g ∉ map fst (own reg) -> g <> "__proto__" -> reg_lookup reg g = None.
Proof.
  intros Hn Hp. unfold reg_lookup.
  destruct (reg_get reg g) as [|rules| | |n] eqn:E; try done.
  exfalso. by apply (reg_get_not_own V reg g rules Hn Hp).
Qed.

(** X1: [validateAll] never records [false] or an empty message: every
    entry of the mapping it produces is a truthy message. *)
Theorem validateAll_entries_truthy {V} (reg : registry V) value m f e :
  snd (validateAll reg value) = Some m -> m !! f = Some e -> truthy e = true.
Proof.
  intros H. apply (validate_keys_truthy V (reg_get reg) value (forin_keys reg) ∅ m); [| done].
  intros g e' Hg. by rewrite lookup_empty in Hg.
Qed.

(** X2: the outcome of [validateAll] does not depend on the order in which
    [for ... in] visits the keys: visiting them in any other order throws
    exactly when [validateAll] throws, and otherwise gives the same
    mapping. *)
Theorem validateAll_order_independent {V} (reg : registry V) value keys :
  keys ≡ₚ forin_keys reg ->
  snd (validate_keys (reg_get reg) value keys ∅) = snd (validateAll reg value).
Proof. intros Hp. by apply validate_keys_perm. Qed.

(** X3: every validator call made by [validateAll] is a rule registered
    for that field, and no rule is called twice. *)
Theorem validateAll_calls_registered_once {V} (reg : registry V) value :
  NoDup (map fst reg) ->
  NoDup (fst (validateAll reg value)) /\
  (forall c, c ∈ fst (validateAll reg value) ->
     exists rules, In (call_field c, rules) reg /\ call_index c < length rules).
Proof.
  intros Hnd. split.
  - apply validate_keys_NoDup. by apply forin_keys_NoDup.
  - intros c Hc. destruct (validate_keys_calls V (reg_get reg) value _ ∅ c Hc) as [Hin Hc'].
    destruct (key_run_calls V (reg_get reg) value _ c Hc') as [_ (rules & Hg & Hi)].
    exists rules. split; [| done].
    apply reg_get_array_In; [| done]. by apply (forin_array_own V reg _ rules).
Qed.

(** X4: [validateField f] keeps every other entry of the error state it
    was rendered with. *)
Theorem validateField_frame {V} (reg : registry V) value errors f m g :
  snd (validateField reg value errors f) = Some m -> g <> f ->
  m !! g = spread errors !! g.
Proof.
  rewrite validateField_eq. intros H Hne.
  destruct (reg_get reg f) as [|rules| | |n].
  - simpl in H. injection H as <-. by rewrite lookup_insert_ne.
  - destruct (run_rules f 0 rules (value f)) as [t [o|]]; [| done].
    simpl in H. injection H as <-. by rewrite lookup_insert_ne.
  - done.
  - done.
  - destruct n; [| done]. simpl in H. injection H as <-. by rewrite lookup_insert_ne.
Qed.

(** X5: [validateField] and [validateAll] agree on a registered field:
    both record the same first failing message, or [validateField]
    records [false] where [validateAll] records nothing. *)
Theorem validateField_agrees_validateAll {V} (reg : registry V) value errors f rules m m' :
  NoDup (map fst reg) -> In (f, rules) reg ->
  snd (validateAll reg value) = Some m ->
  snd (validateField reg value errors f) = Some m' ->
  (m !! f = None /\ m' !! f = Some SFalse) \/
  (exists e, truthy e = true /\ m !! f = Some e /\ m' !! f = Some e).
Proof.
  intros Hnd Hin Hm Hm'.
  pose proof (reg_get_own V reg f rules Hnd Hin) as Hg.
  assert (Hk : f ∈ forin_keys reg).
  { apply own_in_forin, list_elem_of_In, in_map_iff. by exists (f, rules). }
  destruct (validate_keys_entry V (reg_get reg) value _ ∅ m f Hk Hm) as (o & Ho & Ef).
  rewrite (key_run_array V _ value f rules Hg) in Ho.
  rewrite validateField_eq, Hg in Hm'.
  destruct (run_rules f 0 rules (value f)) as [t [o'|]] eqn:E; [| done].
  simpl in Ho. injection Ho as ->. simpl in Hm'. injection Hm' as <-.
  rewrite lookup_insert_eq, Ef. destruct o as [e|].
  - right. exists e. split; [| done].
    apply (run_rules_truthy V f (value f) rules 0). by rewrite E.
  - left. split; [apply lookup_empty | done].
Qed.

(** X6: a validator invoked by [validateField] throws: the exception
    propagates, the throwing call is the last call made, and the error
    state is left as it was. *)
Theorem validateField_throw_atomic {V} (reg : registry V) value errors f c :
  c ∈ fst (validateField reg value errors f) -> call_throws reg value c ->
  snd (validateField reg value errors f) = None /\
  (forall state, commit (validateField reg value errors f) state = state) /\
  exists pre, fst (validateField reg value errors f) = pre ++ [c].
Proof.
  intros Hc (rules & r & Hg & Hr & Hth).
  rewrite validateField_eq in Hc |- *.
  destruct (reg_get reg f) as [|rs| | |[|n]] eqn:Ef;
    [simpl in Hc; by apply not_elem_of_nil in Hc | |
     simpl in Hc; by apply not_elem_of_nil in Hc..].
  destruct (run_rules_returned V f (value f) rs 0) as [H1 H2].
  assert (Hnot : c ∈ fst (run_rules f 0 rs (value f)) ->
            (exists r' e, rs !! (call_index c - 0) = Some r' /\ r' (value f) = Returns e) -> False).
  { intros Hc' (r' & e & Hr' & He). apply run_rules_calls in Hc' as [Hf _].
    rewrite Hf, Ef in Hg. injection Hg as <-. rewrite Nat.sub_0_r, Hr in Hr'.
    injection Hr' as <-. rewrite Hf in Hth. congruence. }
  destruct (run_rules f 0 rs (value f)) as [t [o|]] eqn:E; simpl in Hc.
  - exfalso. apply (Hnot Hc). by apply H1.
  - split; [done | split; [by intros state |]].
    destruct (H2 eq_refl) as (pre & c' & Htr & Hpre). simpl in Htr. exists pre.
    rewrite Htr in Hc |- *. apply elem_of_app in Hc as [Hc | Hc].
    + exfalso. apply Hnot; [rewrite Htr; apply elem_of_app; by left | by apply Hpre].
    + by apply list_elem_of_singleton in Hc as ->.
Qed.

(** X7: [validateField] invokes the field's rules in order, up to and
    including the first failing one; when all pass it invokes all of
    them. *)
Theorem validateField_calls {V} (reg : registry V) value errors f rules :
  reg_lookup reg f = Some rules ->
  (Forall (passes (value f)) rules ->
     fst (validateField reg value errors f) = map (Call f) (seq 0 (length rules))) /\
  (forall j r e,
     (forall k r', k < j -> rules !! k = Some r' -> passes (value f) r') ->
     rules !! j = Some r -> r (value f) = Returns e -> truthy e = true ->
     fst (validateField reg value errors f) = map (Call f) (seq 0 (S j))).
Proof.
  intros Hl. rewrite validateField_eq.
  unfold reg_lookup in Hl. destruct (reg_get reg f) as [|rs| | |n]; try discriminate.
  injection Hl as ->. split.
  - intros Hall.
    pose proof (run_rules_all_pass V f (value f) rules 0 Hall) as Hs.
    pose proof (run_rules_trace_all_pass V f (value f) rules 0 Hall) as Ht.
    destruct (run_rules f 0 rules (value f)) as [t [o|]]; simpl in *; [done | discriminate].
  - intros j r e Hbefore Hj Hr Htr.
    pose proof (run_rules_first_failure V f (value f) rules j r e 0 Hbefore Hj Hr Htr) as Hs.
    pose proof (run_rules_trace_first_failure V f (value f) rules j r e 0 Hbefore Hj Hr Htr) as Ht.
    destruct (run_rules f 0 rules (value f)) as [t [o|]]; simpl in *; [done | discriminate].
Qed.

(** X8: re-registering a field keeps the order in which [validateAll]
    visits the keys; on a registry whose prototype is [Object.prototype],
    registering a new field whose name is not an array index (nor
    [__proto__]) makes it the last key visited. *)
Theorem addValidator_forin_keys {V} (reg : registry V) f rules :
  (f ∈ map fst reg -> forin_keys (addValidator reg f rules) = forin_keys reg) /\
  (f ∉ map fst reg -> proto reg = None -> array_index f = None -> f <> "__proto__" ->
     forin_keys (addValidator reg f rules) = forin_keys reg ++ [f]).
Proof.
  split.
  - intros Hin. unfold addValidator.
    destruct (own_lookup (own reg) f) eqn:E; [| by apply own_lookup_None in E].
    unfold forin_keys. cbn [own proto]. rewrite own_set_keys.
    by rewrite decide_True by done.
  - intros Hn Hp Hi Hf. unfold addValidator.
    rewrite (proj2 (own_lookup_None V (own reg) f) Hn).
    destruct (String.eqb f "__proto__") eqn:Ep; [apply String.eqb_eq in Ep; congruence |].
    unfold forin_keys. cbn [own proto]. rewrite Hp, own_set_keys.
    rewrite decide_False by done. unfold own_keys.
    rewrite index_keys_app_not_index by done. rewrite filter_app, filter_cons.
    rewrite decide_True by done. by rewrite !app_nil_r, app_assoc.
Qed.

(** X9: [addValidator f] leaves the rule list of every other field as it
    was. *)
Theorem addValidator_frame {V} (reg : registry V) f g rules :
  g <> f -> reg_lookup (addValidator reg f rules) g = reg_lookup reg g.
Proof.
  intros Hne. unfold addValidator.
  assert (Hset : reg_lookup (Registry (own_set (own reg) f rules) (proto reg)) g = reg_lookup reg g).
  { unfold reg_lookup, reg_get. cbn [own proto]. by rewrite own_lookup_own_set_ne. }
  destruct (own_lookup (own reg) f) eqn:E; [done |].
  destruct (String.eqb f "__proto__") eqn:Ep; [| done].
  apply String.eqb_eq in Ep as ->.
  destruct (own_lookup (own reg) g) as [rs|] eqn:Eg.
  - unfold reg_lookup, reg_get. cbn [own proto]. by rewrite Eg.
  - apply own_lookup_None in Eg.
    rewrite (reg_lookup_not_own reg g Eg Hne).
    by apply (reg_lookup_not_own (Registry (own reg) (Some rules)) g).
Qed.


(** X12: the keys of the rendered items are pairwise distinct exactly
    when the items' non-empty [field]s are pairwise distinct and none of
    them is the decimal numeral of the index of an item without a
    (non-empty) [field]. *)
Theorem item_keys_NoDup_iff (fields : list (option string)) :
  NoDup (item_keys fields) <->
  (forall i j s, fields !! i = Some (Some s) -> fields !! j = Some (Some s) ->
     s <> "" -> i = j) /\
  (forall i j s, fields !! i = Some (Some s) -> s <> "" ->
     (fields !! j = Some None \/ fields !! j = Some (Some "")) -> s <> pretty j).
Proof.
  assert (Hkey : forall fo n,
            (exists s, fo = Some s /\ s <> "" /\ key_string (item_key fo n) = s) \/
            ((fo = None \/ fo = Some "") /\ key_string (item_key fo n) = pretty n)).
  { intros [s|] n; simpl; [| by right; split; [left |]].
    destruct (String.eqb s "") eqn:E.
    - right. apply String.eqb_eq in E as ->. split; [by right | done].
    - left. exists s. apply String.eqb_neq in E. done. }
  assert (Hlook : forall i fo, fields !! i = Some fo ->
            item_keys fields !! i = Some (key_string (item_key fo i))).
  { intros i fo Hi. unfold item_keys. rewrite list_lookup_imap, Hi. done. }
  rewrite NoDup_alt. split.
  - intros Hnd. split.
    + intros i j s Hi Hj Hs. apply (Hnd i j s).
      * rewrite (Hlook i _ Hi). simpl. destruct (String.eqb s "") eqn:E; [| done].
        apply String.eqb_eq in E. congruence.
      * rewrite (Hlook j _ Hj). simpl. destruct (String.eqb s "") eqn:E; [| done].
        apply String.eqb_eq in E. congruence.
    + intros i j s Hi Hs Hj Heq.
      assert (Hij : i = j).
      { apply (Hnd i j s).
        - rewrite (Hlook i _ Hi). simpl. destruct (String.eqb s "") eqn:E; [| done].
          apply String.eqb_eq in E. congruence.
        - destruct Hj as [Hj | Hj]; rewrite (Hlook j _ Hj); simpl; by rewrite Heq. }
      subst j. destruct Hj as [Hj | Hj]; rewrite Hi in Hj; injection Hj; congruence.
  - intros [Hdist Hnum] i j k Hi Hj.
    unfold item_keys in Hi, Hj. rewrite list_lookup_imap in Hi, Hj.
    destruct (fields !! i) as [fi|] eqn:Ei; [| done].
    destruct (fields !! j) as [fj|] eqn:Ej; [| done].
    simpl in Hi, Hj. injection Hi as Hi. injection Hj as Hj.
    destruct (Hkey fi i) as [(s & -> & Hs & Ki) | [Ui Ki]],
             (Hkey fj j) as [(t & -> & Ht & Kj) | [Uj Kj]].
    + apply (Hdist i j t); [congruence | done | done].
    + exfalso. apply (Hnum i j s Ei Hs); [destruct Uj as [-> | ->]; [by left | by right] |].
      congruence.
    + exfalso. apply (Hnum j i t Ej Ht); [destruct Ui as [-> | ->]; [by left | by right] |].
      congruence.
    + apply (inj pretty). congruence.
Qed.



(** ** Witnesses: the theorems at concrete inputs *)

(** A decidable proposition about closed terms, by evaluation. *)
Ltac by_decide := apply (bool_decide_unpack _); vm_compute; exact I.

Lemma validateAll_entry_witness :
  (∅ : Errors) !! "email" = None.
Proof.
  apply (proj1 (validateAll_entry email_registry (email_value "a@b.com") "email"
                  [required; isEmail] ∅ (NoDup_singleton _) (or_introl eq_refl)
                  ltac:(vm_compute; reflexivity))).
  repeat constructor; exists SFalse; split; vm_compute; reflexivity.
Defined.

Lemma first_failure_wins_witness :
  validateField email_registry (email_value "") None "email" =
    ([Call "email" 0], Some (<["email" := SStr "required"]> ∅)).
Proof.
  apply (first_failure_wins email_registry (email_value "") None "email" required [isEmail]
           (SStr "required") (NoDup_singleton _) (or_introl eq_refl));
    vm_compute; reflexivity.
Defined.

Lemma validateAll_throw_atomic_witness :
  snd (validateAll throw_registry (email_value "")) = None.
Proof.
  assert (Ht : fst (validateAll throw_registry (email_value "")) = [Call "a" 0])
    by (vm_compute; reflexivity).
  apply (proj1 (validateAll_throw_atomic throw_registry (email_value "") (Call "a" 0)
                  ltac:(rewrite Ht; apply list_elem_of_singleton; reflexivity)
                  ltac:(exists [boom], boom; split; [vm_compute; reflexivity | split; reflexivity]))).
Defined.

Lemma validateAll_replaces_witness :
  commit (validateAll email_registry (email_value ""))
    (Some ({[ "phone" := SStr "old" ]} : Errors)) = Some ({[ "email" := SStr "required" ]} : Errors).
Proof.
  assert (H : snd (validateAll email_registry (email_value "")) =
              Some ({[ "email" := SStr "required" ]} : Errors)) by (vm_compute; reflexivity).
  apply (proj1 (validateAll_replaces email_registry (email_value "") _ H)).
Defined.

Lemma validateAll_no_rules_no_entry_witness :
  commit (validateAll email_registry (email_value "")) None = None \/
  exists m, commit (validateAll email_registry (email_value "")) None = Some m /\
    m !! "constructor" = None.
Proof.
  apply (validateAll_no_rules_no_entry email_registry (email_value "") "constructor" None
           (NoDup_singleton _)).
  left. vm_compute. reflexivity.
Defined.


(** ** Witnesses for the further properties *)

Lemma validateAll_entries_truthy_witness : truthy (SStr "required") = true.
Proof.
  assert (H : snd (validateAll email_registry (email_value "")) =
              Some ({[ "email" := SStr "required" ]} : Errors)) by (vm_compute; reflexivity).
  apply (validateAll_entries_truthy email_registry (email_value "") _ "email" _ H).
  apply lookup_singleton_eq.
Defined.

Lemma validateAll_order_independent_witness :
  snd (validate_keys (reg_get two_field_registry) (email_value "") ["name"; "email"] ∅) =
  snd (validateAll two_field_registry (email_value "")).
Proof.
  apply validateAll_order_independent.
  change (forin_keys two_field_registry) with ["email"; "name"]. apply perm_swap.
Defined.

Lemma validateAll_calls_registered_once_witness :
  NoDup (fst (validateAll two_field_registry (email_value ""))).
Proof.
  assert (H : NoDup (map fst (own two_field_registry))) by by_decide.
  apply (proj1 (validateAll_calls_registered_once two_field_registry (email_value "") H)).
Defined.

Lemma validateField_frame_witness :
  (<["email" := SStr "required"]> ({[ "name" := SStr "old" ]} : Errors)) !! "name" =
    Some (SStr "old").
Proof.
  apply (validateField_frame two_field_registry (email_value "") (Some {[ "name" := SStr "old" ]})
           "email" _ "name" ltac:(vm_compute; reflexivity) ltac:(discriminate)).
Defined.

Lemma validateField_agrees_validateAll_witness :
  ((∅ : Errors) !! "email" = None /\ (<["email" := SFalse]> ∅ : Errors) !! "email" = Some SFalse) \/
  (exists e, truthy e = true /\ (∅ : Errors) !! "email" = Some e /\
     (<["email" := SFalse]> ∅ : Errors) !! "email" = Some e).
Proof.
  apply (validateField_agrees_validateAll email_registry (email_value "a@b.com") None "email"
           [required; isEmail] ∅ (<["email" := SFalse]> ∅) (NoDup_singleton _) (or_introl eq_refl));
    vm_compute; reflexivity.
Defined.

Lemma validateField_throw_atomic_witness :
  commit (validateField throw_registry (email_value "") (Some ∅) "a") (Some ∅) = Some ∅.
Proof.
  assert (Ht : fst (validateField throw_registry (email_value "") (Some ∅) "a") = [Call "a" 0])
    by (vm_compute; reflexivity).
  apply (proj1 (proj2 (validateField_throw_atomic throw_registry (email_value "") (Some ∅) "a"
                         (Call "a" 0)
                         ltac:(rewrite Ht; apply list_elem_of_singleton; reflexivity)
                         ltac:(exists [boom], boom; split; [vm_compute; reflexivity |
                                                            split; reflexivity])))).
Defined.

Lemma validateField_calls_witness :
  fst (validateField email_registry (email_value "a@b.com") None "email") =
    map (Call "email") (seq 0 2).
Proof.
  apply (proj1 (validateField_calls email_registry (email_value "a@b.com") None "email"
                  [required; isEmail] ltac:(vm_compute; reflexivity))).
  repeat constructor; exists SFalse; split; vm_compute; reflexivity.
Defined.

Lemma addValidator_forin_keys_witness :
  forin_keys (addValidator email_registry "name" [required]) = ["email"; "name"].
Proof.
  assert (H1 : "name" ∉ map fst (own email_registry)) by by_decide.
  apply (proj2 (addValidator_forin_keys email_registry "name" [required]));
    [exact H1 | reflexivity | vm_compute; reflexivity | discriminate].
Defined.

Lemma addValidator_frame_witness :
  reg_lookup (addValidator email_registry "__proto__" [required]) "email" =
    Some [required; isEmail].
Proof.
  rewrite (addValidator_frame email_registry "__proto__" "email" [required] ltac:(discriminate)).
  vm_compute. reflexivity.
Defined.


Lemma item_keys_NoDup_iff_witness :
  NoDup (item_keys [Some "email"; None; Some "7"]) /\ ~ NoDup (item_keys [None; Some "0"]).
Proof.
  split.
  - apply (proj2 (item_keys_NoDup_iff [Some "email"; None; Some "7"])). split.
    + intros i j s Hi Hj _.
      destruct i as [|[|[|i]]]; destruct j as [|[|[|j]]]; vm_compute in Hi, Hj; congruence.
    + intros i j s Hi _ Hj.
      destruct i as [|[|[|i]]]; destruct j as [|[|[|j]]]; vm_compute in Hi, Hj;
        destruct Hj as [Hj | Hj]; try congruence; injection Hi as <-; vm_compute; discriminate.
  - intros Hnd. apply (item_keys_NoDup_iff [None; Some "0"]) in Hnd as [_ Hnum].
    apply (Hnum 1 0 "0"); [reflexivity | discriminate | by left | reflexivity].
Defined.


